(** * CoreDNS redis plugin: dispatch, zone-name cache and AXFR chunking

    A shallow embedding of [plugin/plugin.go]: the envelope producer of
    [handleZoneTransfer], the handler [ServeDNS] and the zone-name cache
    of [startZoneNameCache], with the properties stated about them. *)

From Stdlib Require Import ZArith Lia.
From stdpp Require Import base tactics option list strings.

Local Open Scope Z_scope.

(** ** AXFR envelope chunking ([handleZoneTransfer], the producer goroutine) *)

Section Producer.

(** [dns.RR] is opaque here; [dns.Len] gives a record's wire length and
    [redis.MaxTransferLength] is a constant of the redis package. *)
Context {RR : Type}.
Variable Len : RR → Z.
Variable MaxTransferLength : Z.

(** [dns.Envelope{RR: ...}]; the [Error] field is left unset by the producer. *)
Record Envelope := mkEnvelope { env_RR : list RR }.

(** What the producer does to the channel [ch]. *)
Inductive ChanOp :=
| Send (e : Envelope)
| Close.

(** The Go slice expression [records[j:i]]; the producer only evaluates it
    with [j <= i <= len(records)], where Go does not panic. *)
Definition slice (records : list RR) (j i : nat) : list RR :=
  take (i - j) (drop j records).

(** The loop variables [j], [l] and the envelopes pushed so far.  [l] is a
    Go [int]: it is reset as soon as it passes the maximum, so it stays
    within one record length of it and never wraps around. *)
Record LoopState := mkLoop {
  ls_j : nat;
  ls_l : Z;
  ls_sent : list Envelope
}.

(** One iteration of [for i, r := range records]. *)
Definition loop_body (records : list RR) (st : LoopState) (i : nat) (r : RR)
  : LoopState :=
  let l := ls_l st + Len r in
  if MaxTransferLength <? l
  then mkLoop i 0 (ls_sent st ++ [mkEnvelope (slice records (ls_j st) i)])
  else mkLoop (ls_j st) l (ls_sent st).

(** The iterations from index [i] on; [rest] is [records[i:]]. *)
Fixpoint range_loop (records : list RR) (i : nat) (rest : list RR)
    (st : LoopState) : LoopState :=
  match rest with
  | [] => st
  | r :: rest' => range_loop records (S i) rest' (loop_body records st i r)
  end.

(** All envelopes pushed to the channel, in order: the loop from
    [j, l := 0, 0], then the final flush [if j < len(records)]. *)
Definition envelopes (records : list RR) : list Envelope :=
  let st := range_loop records 0 records (mkLoop 0 0 []) in
  if (ls_j st <? length records)%nat
  then ls_sent st ++ [mkEnvelope (drop (ls_j st) records)]
  else ls_sent st.

(** The goroutine body: the sends, then [close(ch)]. *)
Definition producer (records : list RR) : list ChanOp :=
  map Send (envelopes records) ++ [Close].

(** What a consumer ranging over the channel receives before it sees the
    channel closed. *)
Fixpoint received (ops : list ChanOp) : list Envelope :=
  match ops with
  | Send e :: ops' => e :: received ops'
  | Close :: _ => []
  | [] => []
  end.

(** Whether the consumer's range loop ends, i.e. the channel gets closed. *)
Fixpoint closed (ops : list ChanOp) : bool :=
  match ops with
  | Send _ :: ops' => closed ops'
  | Close :: _ => true
  | [] => false
  end.

(** Serialized length of a batch of records. *)
Definition wire_len (rs : list RR) : Z :=
  foldr (λ r acc, Len r + acc) 0 rs.

(** The records of a list of envelopes, concatenated in sending order. *)
Definition all_records (es : list Envelope) : list RR :=
  concat (map env_RR es).

(** An envelope fits the budget once its first record is set aside. *)
Definition tail_within_budget (e : Envelope) : Prop :=
  wire_len (tail (env_RR e)) ≤ MaxTransferLength.

End Producer.

Arguments Envelope RR : clear implicits.
Arguments ChanOp RR : clear implicits.
Arguments LoopState RR : clear implicits.

(** ** Zone matching ([plugin.Zones.Matches], called by [ServeDNS]) *)

(** Go's [s[n:]] on a string of bytes, for [n <= len(s)]. *)
Fixpoint string_drop (n : nat) (s : string) : string :=
  match n, s with
  | O, _ => s
  | S n', String _ s' => string_drop n' s'
  | S _, EmptyString => EmptyString
  end.

(** Whether [s] ends with [suffix]. *)
Definition has_suffix (s suffix : string) : bool :=
  (String.length suffix <=? String.length s)%nat &&
  String.eqb (string_drop (String.length s - String.length suffix) s) suffix.

(** Modelled from the spec: [plugin.Zones.Matches] belongs to the CoreDNS
    plugin package and its body is not part of this repository; [ServeDNS]
    only calls it.  The spec describes it as a longest-suffix match between
    the query name and every entry of the cached zone list, returning the
    matched zone name, or an empty result if no zone in the cache is a
    suffix of the query name.  The scan keeps the longest matching entry
    seen so far, starting from the empty result. *)
Fixpoint Matches_from (zone : string) (z : list string) (qname : string)
  : string :=
  match z with
  | [] => zone
  | zname :: z' =>
      Matches_from
        (if has_suffix qname zname
            && (String.length zone <? String.length zname)%nat
         then zname else zone)
        z' qname
  end.

Definition Matches (z : list string) (qname : string) : string :=
  Matches_from "" z qname.

(** The declarative reading of "is a suffix of". *)
Definition suffix_of_name (z qname : string) : Prop :=
  ∃ prefix : string, qname = prefix +:+ z.

(** "No cached zone is a suffix of the query name." *)
Definition no_zone_is_suffix (z : list string) (qname : string) : bool :=
  forallb (λ zname, negb (has_suffix qname zname)) z.

(** "No non-empty cached zone is a suffix of the query name." *)
Definition no_nonempty_zone_is_suffix (z : list string) (qname : string)
  : bool :=
  forallb (λ zname, bool_decide (zname = "") || negb (has_suffix qname zname))
    z.

(** ** Constants of [github.com/miekg/dns] used by the handler *)

Definition TypeNone : Z := 0.
Definition TypeA : Z := 1.
Definition TypeNS : Z := 2.
Definition TypeCNAME : Z := 5.
Definition TypeSOA : Z := 6.
Definition TypePTR : Z := 12.
Definition TypeMX : Z := 15.
Definition TypeTXT : Z := 16.
Definition TypeAAAA : Z := 28.
Definition TypeSRV : Z := 33.
Definition TypeAXFR : Z := 252.
Definition TypeCAA : Z := 257.

Definition RcodeSuccess : Z := 0.
Definition RcodeServerFailure : Z := 2.
Definition RcodeNameError : Z := 3.
Definition RcodeNotImplemented : Z := 4.

(** ** The handler ([ServeDNS], [handleZoneTransfer]) *)

Inductive LogLevel := Debug | Info | Error.

Section Handler.

(** Opaque types of the collaborators: resource records, [record.Zone],
    the record set of a location, the request [dns.Msg] and Go errors. *)
Context {RR Zone ZoneRecords DnsMsg Err : Type}.

(** The reply built by [ServeDNS]: [SetReply(r)], the three header flags
    and the two sections. *)
Record Reply := mkReply {
  reply_to : DnsMsg;
  Authoritative : bool;
  RecursionAvailable : bool;
  Compress : bool;
  Answer : list RR;
  Extra : list RR
}.

(** A Go result pair [(int, error)]; [None] is a nil error. *)
Definition Result : Type := Z * option Err.

(** The API of the redis package ([p.Redis]) as the handler uses it.  The
    connection argument is left out: one connection serves one query. *)
Record Redis := mkRedis {
  LoadZoneC : string → bool → option Zone;
  FindLocation : string → Zone → string;
  LoadZoneRecordsC : string → Zone → ZoneRecords;
  MakeFqdn : ZoneRecords → string → ZoneRecords;
  zone_Name : Zone → string;
  SOA : Zone → ZoneRecords → list RR * list RR;
  A : string → Zone → ZoneRecords → list RR * list RR;
  AAAA : string → Zone → ZoneRecords → list RR * list RR;
  CNAME : string → Zone → ZoneRecords → list RR * list RR;
  TXT : string → Zone → ZoneRecords → list RR * list RR;
  NS : string → Zone → ZoneRecords → list string → list RR * list RR;
  MX : string → Zone → ZoneRecords → list string → list RR * list RR;
  SRV : string → Zone → ZoneRecords → list string → list RR * list RR;
  PTR : string → Zone → ZoneRecords → list string → list RR * list RR;
  CAA : string → Zone → ZoneRecords → list RR * list RR;
  AXFR : Zone → list string → list RR;
  ErrorResponse : DnsMsg → string → Z → option Err → Result;
  MaxTransferLength : Z
}.

(** What the handler gets from CoreDNS and the dns library: the accessors
    of [request.Request], [plugin.NextOrFailure] with the next handler,
    the response writer and the transfer [tr.Out]. *)
Record Host := mkHost {
  Name : DnsMsg → string;
  QType : DnsMsg → Z;
  SizeAndDo : DnsMsg → Reply → Reply;
  Scrub : DnsMsg → Reply → Reply;
  NextOrFailure : string → DnsMsg → Result;
  WriteMsg : Reply → option Err;
  Len : RR → Z;
  tr_Out : DnsMsg → list (ChanOp RR) → option Err
}.

(** The calls the handler makes that are visible outside it, in order. *)
Inductive Effect :=
| PoolGet
| ConnClose
| Log (level : LogLevel) (format : string)
| CallNext (qName : string)
| CallErrorResponse (zoneName : string) (rcode : Z)
| TransferOut (ch : list (ChanOp RR)) (err : option Err)
| Println (err : Err)
| Hijack
| CallWriteMsg (m : Reply) (err : option Err).

(** A run of the handler: its effects and its return value. *)
Record Served := mkServed {
  effects : list Effect;
  ret : Result
}.

(** [p.zones]; [Redis] and [Next] are fixed for the section, the ticker
    and the lock carry no data. *)
Record Plugin := mkPlugin { zones : list string }.

Variable redis : Redis.
Variable host : Host.

(** Effects [pre] happen first, then the run [s]. *)
Definition after (pre : list Effect) (s : Served) : Served :=
  mkServed (pre ++ effects s) (ret s).

(** [conn := p.Redis.Pool.Get(); defer conn.Close()] around the rest of
    the body. *)
Definition with_conn (s : Served) : Served :=
  mkServed (PoolGet :: effects s ++ [ConnClose]) (ret s).

(** [ch] is the producer's whole program, the sends and the final close,
    as [tr.Out] finds it on the channel.  A transfer that returns [nil] has
    ranged over all of it.  A transfer that fails stops receiving: the
    channel is unbuffered, so the goroutine then stays blocked in a send
    and the rest of its program, the close included, never runs. *)
Definition handleZoneTransfer (zone : Zone) (zones : list string)
    (r : DnsMsg) : Served :=
  let records := AXFR redis zone zones in
  let ch := producer (Len host) (MaxTransferLength redis) records in
  let err := tr_Out host r ch in
  mkServed
    (TransferOut ch err
       :: match err with Some e => [Println e] | None => [] end
       ++ [Hijack])
    (RcodeSuccess, None).

(** The [switch qType]; [None] is the [default] arm. *)
Definition synthesize (p : Plugin) (qType : Z) (qName : string)
    (zone : Zone) (zoneRecords : ZoneRecords)
  : option (list RR * list RR) :=
  if qType =? TypeSOA then Some (SOA redis zone zoneRecords)
  else if qType =? TypeA then Some (A redis qName zone zoneRecords)
  else if qType =? TypeAAAA then Some (AAAA redis qName zone zoneRecords)
  else if qType =? TypeCNAME then Some (CNAME redis qName zone zoneRecords)
  else if qType =? TypeTXT then Some (TXT redis qName zone zoneRecords)
  else if qType =? TypeNS
    then Some (NS redis qName zone zoneRecords (zones p))
  else if qType =? TypeMX
    then Some (MX redis qName zone zoneRecords (zones p))
  else if qType =? TypeSRV
    then Some (SRV redis qName zone zoneRecords (zones p))
  else if qType =? TypePTR
    then Some (PTR redis qName zone zoneRecords (zones p))
  else if qType =? TypeCAA then Some (CAA redis qName zone zoneRecords)
  else None.

Definition ServeDNS (p : Plugin) (r : DnsMsg) : Served :=
  let qName := Name host r in
  let qType := QType host r in
  if bool_decide (qName = "") || (qType =? TypeNone) then
    mkServed [CallNext qName] (NextOrFailure host qName r)
  else with_conn (
    let zoneName := Matches (zones p) qName in
    if bool_decide (zoneName = "") then
      mkServed [Log Debug "zone not found: %s"; CallNext qName]
               (NextOrFailure host qName r)
    else
      match LoadZoneC redis zoneName false with
      | None =>
          mkServed [Log Error "unable to load zone: %s";
                    CallErrorResponse zoneName RcodeServerFailure]
                   (ErrorResponse redis r zoneName RcodeServerFailure None)
      | Some zone =>
          if qType =? TypeAXFR then
            after [Log Debug "zone transfer request (Handler)"]
                  (handleZoneTransfer zone (zones p) r)
          else
            let location := FindLocation redis qName zone in
            if bool_decide (location = "") then
              mkServed [Log Debug "location %s not found for zone: %s";
                        CallErrorResponse zoneName RcodeNameError]
                       (ErrorResponse redis r zoneName RcodeNameError None)
            else
              let zoneRecords :=
                MakeFqdn redis (LoadZoneRecordsC redis location zone)
                         (zone_Name redis zone) in
              match synthesize p qType qName zone zoneRecords with
              | None =>
                  mkServed [CallErrorResponse zoneName RcodeNotImplemented]
                           (ErrorResponse redis r zoneName
                              RcodeNotImplemented None)
              | Some (answers, extras) =>
                  let m := mkReply r true false true answers extras in
                  let m := Scrub host r (SizeAndDo host r m) in
                  mkServed [CallWriteMsg m (WriteMsg host m)]
                           (RcodeSuccess, None)
              end
      end).

(** *** Outcome of a run, in the vocabulary of the dispatcher's contract *)

Inductive Outcome :=
| Delegate
| SERVFAIL
| NXDOMAIN
| NOTIMP
| Success
| Unclassified.

Definition outcome_of_rcode (rcode : Z) : Outcome :=
  if rcode =? RcodeServerFailure then SERVFAIL
  else if rcode =? RcodeNameError then NXDOMAIN
  else if rcode =? RcodeNotImplemented then NOTIMP
  else Unclassified.

(** The first delegation or error response among the effects, if any. *)
Fixpoint exit_call (es : list Effect) : option Outcome :=
  match es with
  | [] => None
  | CallNext _ :: _ => Some Delegate
  | CallErrorResponse _ rcode :: _ => Some (outcome_of_rcode rcode)
  | _ :: es' => exit_call es'
  end.

(** A run that neither delegates nor sends an error response succeeds
    when it returns [(dns.RcodeSuccess, nil)]. *)
Definition outcome (s : Served) : Outcome :=
  match exit_call (effects s) with
  | Some o => o
  | None =>
      match ret s with
      | (rcode, None) =>
          if rcode =? RcodeSuccess then Success else Unclassified
      | (_, Some _) => Unclassified
      end
  end.

(** The query types with an arm in the [switch]. *)
Definition supported (qType : Z) : bool :=
  existsb (Z.eqb qType)
    [TypeSOA; TypeA; TypeAAAA; TypeCNAME; TypeTXT;
     TypeNS; TypeMX; TypeSRV; TypePTR; TypeCAA].

(** The outcome as the dispatcher's error/signal summary words it: the
    cases in the order given, delegation when no cached zone is a suffix of
    the query name, [AXFR] excepted from the unsupported types only. *)
Definition claimed_outcome (p : Plugin) (r : DnsMsg) : Outcome :=
  let qName := Name host r in
  let qType := QType host r in
  if bool_decide (qName = "") || (qType =? TypeNone) then Delegate
  else if no_zone_is_suffix (zones p) qName then Delegate
  else
    match LoadZoneC redis (Matches (zones p) qName) false with
    | None => SERVFAIL
    | Some zone =>
        if bool_decide (FindLocation redis qName zone = "") then NXDOMAIN
        else if negb (supported qType) && negb (qType =? TypeAXFR)
        then NOTIMP
        else Success
    end.

(** The same summary with delegation when no non-empty cached zone is a
    suffix of the query name, and [AXFR] excepted from the location lookup
    too. *)
Definition dispatch_outcome (p : Plugin) (r : DnsMsg) : Outcome :=
  let qName := Name host r in
  let qType := QType host r in
  if bool_decide (qName = "") || (qType =? TypeNone) then Delegate
  else if no_nonempty_zone_is_suffix (zones p) qName then Delegate
  else
    match LoadZoneC redis (Matches (zones p) qName) false with
    | None => SERVFAIL
    | Some zone =>
        if negb (qType =? TypeAXFR)
           && bool_decide (FindLocation redis qName zone = "")
        then NXDOMAIN
        else if negb (supported qType) && negb (qType =? TypeAXFR)
        then NOTIMP
        else Success
    end.

End Handler.

Arguments Reply : clear implicits.
Arguments Redis : clear implicits.
Arguments Host : clear implicits.
Arguments Effect : clear implicits.
Arguments Served : clear implicits.

(** ** The zone-name cache ([startZoneNameCache]) *)

Section ZoneNameCache.

Context {Err : Type}.

(** A result of [p.Redis.LoadAllZoneNames()]: the slice (nil is the empty
    list) and the error. *)
Definition Loaded : Type := list string * option Err.

Inductive CacheEffect :=
| CacheLog (level : LogLevel) (message : string) (err : option Err)
| Lock
| Unlock
| Spawn.

(** The goroutine started by [startZoneNameCache]: blocked in its
    [select] on the ticker channel, or returned. *)
Inductive Refresher :=
| AwaitingTick
| Returned.

Record Cache := mkCache {
  cache_plugin : Plugin;
  cache_refresher : Refresher;
  cache_trace : list CacheEffect
}.

(** [p.zones = z]. *)
Definition set_zones (p : Plugin) (z : list string) : Plugin :=
  mkPlugin z.

(** The body of [startZoneNameCache] up to the [go] statement; [None]
    when [log.Fatal] ends the process. *)
Definition startZoneNameCache (p : Plugin) (loaded : Loaded)
  : option Cache :=
  match loaded with
  | (_, Some _) => None
  | (z, None) =>
      Some (mkCache (set_zones p z) AwaitingTick
              [Lock; Unlock;
               CacheLog Info "zone name cache loaded" None; Spawn])
  end.

(** The [case <-p.loadZoneTicker.C] arm of the goroutine's [select];
    [loaded] is what [LoadAllZoneNames] returns at that moment.  The
    [select] is not inside a loop, so the goroutine returns after it. *)
Definition refresh (c : Cache) (loaded : Loaded) : Cache :=
  let '(z, err) := loaded in
  mkCache (set_zones (cache_plugin c) z) Returned
    (cache_trace c
       ++ match err with
          | Some e =>
              [CacheLog Error "unable to load zones to cache" (Some e)]
          | None => []
          end
       ++ [Lock; Unlock; CacheLog Info "zone name cache refreshed" None]).

(** One tick of [loadZoneTicker]: it wakes the goroutine if it is still
    waiting; nobody receives it otherwise. *)
Definition tick (c : Cache) (loaded : Loaded) : Cache :=
  match cache_refresher c with
  | AwaitingTick => refresh c loaded
  | Returned => c
  end.

(** Successive ticks, each with the store's answer at that time. *)
Definition ticks (c : Cache) (loads : list Loaded) : Cache :=
  foldl tick c loads.

(** What a reader of [p.zones] sees. *)
Definition cached (c : Cache) : list string := zones (cache_plugin c).

End ZoneNameCache.

Arguments Cache : clear implicits.
Arguments CacheEffect : clear implicits.

(** ** A small concrete deployment

    Records are their wire lengths, a zone is its name, and the store holds
    the single zone [example.com.] with the location [www]. *)

Definition demo_redis : Redis Z string unit (string * Z) string :=
  {| LoadZoneC := λ name _,
       if bool_decide (name = "example.com.") then Some name else None;
     FindLocation := λ query z,
       if bool_decide (query = z) then query
       else if bool_decide (query = "www.example.com.") then "www" else "";
     LoadZoneRecordsC := λ _ _, tt;
     MakeFqdn := λ zr _, zr;
     zone_Name := λ z, z;
     SOA := λ _ _, ([80], []);
     A := λ _ _ _, ([30], []);
     AAAA := λ _ _ _, ([42], []);
     CNAME := λ _ _ _, ([], []);
     TXT := λ _ _ _, ([], []);
     NS := λ _ _ _ _, ([40], [30]);
     MX := λ _ _ _ _, ([], []);
     SRV := λ _ _ _ _, ([], []);
     PTR := λ _ _ _ _, ([], []);
     CAA := λ _ _ _, ([], []);
     AXFR := λ _ _, [600; 600; 600];
     ErrorResponse := λ _ _ _ err, (RcodeSuccess, err);
     MaxTransferLength := 1000 |}.

(** A host whose writer and transfer both fail. *)
Definition demo_host : Host Z (string * Z) string :=
  {| Name := fst;
     QType := snd;
     SizeAndDo := λ _ m, m;
     Scrub := λ _ m, m;
     NextOrFailure := λ _ _,
       (RcodeServerFailure, Some "no next plugin found");
     WriteMsg := λ _, Some "write failed";
     Len := λ r, r;
     tr_Out := λ _ _, Some "transfer failed" |}.

Definition demo_plugin : Plugin := mkPlugin ["example.com."].

(** The same host with a transfer that succeeds. *)
Definition demo_host_transfer_ok : Host Z (string * Z) string :=
  {| Name := Name demo_host;
     QType := QType demo_host;
     SizeAndDo := SizeAndDo demo_host;
     Scrub := Scrub demo_host;
     NextOrFailure := NextOrFailure demo_host;
     WriteMsg := WriteMsg demo_host;
     Len := Len demo_host;
     tr_Out := λ _ _, None |}.

(** ** Auxiliary notions for the properties below *)

Section ProducerAux.

Context {RR : Type}.

(** The statement after the loop: [if j < len(records)] push
    [records[j:]]. *)
Definition final_flush (records : list RR) (st : LoopState RR)
  : list (Envelope RR) :=
  if (ls_j st <? length records)%nat
  then ls_sent st ++ [mkEnvelope (drop (ls_j st) records)]
  else ls_sent st.

End ProducerAux.

Section HandlerAux.

Context {RR DnsMsg Err : Type}.

(** The calls that dispose of a query: delegation, an error response, the
    zone transfer, or the written answer. *)
Definition is_disposition (e : Effect RR DnsMsg Err) : bool :=
  match e with
  | CallNext _ | CallErrorResponse _ _ | TransferOut _ _ | CallWriteMsg _ _ =>
      true
  | _ => false
  end.

(** The calls on the store connection. *)
Definition is_conn (e : Effect RR DnsMsg Err) : bool :=
  match e with
  | PoolGet | ConnClose => true
  | _ => false
  end.

End HandlerAux.

Section CacheAux.

Context {Err : Type}.

(** Whether a trace uses [p.lock] properly, starting with the lock held or
    not: it is never taken twice, never released when free, nothing else
    happens while it is held, and it is free at the end. *)
Fixpoint lock_wellformed (held : bool) (tr : list (CacheEffect Err)) : bool :=
  match tr with
  | [] => negb held
  | Lock :: tr' => negb held && lock_wellformed true tr'
  | Unlock :: tr' => held && lock_wellformed false tr'
  | _ :: tr' => negb held && lock_wellformed held tr'
  end.

(** The error messages of a trace. *)
Definition error_logs (tr : list (CacheEffect Err)) : list (CacheEffect Err) :=
  List.filter
    (λ e, match e with CacheLog Error _ _ => true | _ => false end) tr.

End CacheAux.

(** * Properties *)

(** ** The envelope producer *)

Section ProducerFacts.

Context {RR : Type}.
Variable Len : RR → Z.
Variable MaxTransferLength : Z.

Abbreviation loop_body := (loop_body Len MaxTransferLength).
Abbreviation range_loop := (range_loop Len MaxTransferLength).
Abbreviation envelopes := (envelopes Len MaxTransferLength).
Abbreviation producer := (producer Len MaxTransferLength).
Abbreviation tail_within_budget := (tail_within_budget Len MaxTransferLength).

Lemma all_records_snoc (es : list (Envelope RR)) (rs : list RR) :
  all_records (es ++ [mkEnvelope rs]) = all_records es ++ rs.
Proof.
  unfold all_records. rewrite map_app, concat_app. simpl.
  by rewrite app_nil_r.
Qed.

(** Closing the envelope [records[j:i]] extends the records sent from
    [records[:j]] to [records[:i]]. *)
Lemma take_slice (records : list RR) (j i : nat) :
  (j ≤ i)%nat → take j records ++ slice records j i = take i records.
Proof.
  intros Hji. unfold slice. rewrite take_take_drop. f_equal. lia.
Qed.

(** The loop keeps [j] at or below the scan position, and what has been
    sent so far is exactly [records[:j]]. *)
Lemma range_loop_sent (records : list RR) :
  ∀ (rest : list RR) (i : nat) (st : LoopState RR),
    (i + length rest = length records)%nat →
    (ls_j st ≤ i)%nat →
    all_records (ls_sent st) = take (ls_j st) records →
    (ls_j (range_loop records i rest st) ≤ length records)%nat ∧
    all_records (ls_sent (range_loop records i rest st))
      = take (ls_j (range_loop records i rest st)) records.
Proof.
  induction rest as [|r rest IH]; intros i st Hlen Hj Hsent; simpl in *.
  - split; [lia | done].
  - apply IH; [lia | |]; unfold loop_body;
      destruct (MaxTransferLength <? ls_l st + Len r); simpl; try lia; try done.
    rewrite all_records_snoc, Hsent. by apply take_slice.
Qed.

Lemma envelopes_all_records (records : list RR) :
  all_records (envelopes records) = records.
Proof.
  unfold envelopes.
  destruct (range_loop_sent records records 0 (mkLoop 0 0 []))
    as [Hj Hsent]; [simpl; lia | simpl; lia | by rewrite take_0 |].
  destruct (Nat.ltb_spec (ls_j (range_loop records 0 records (mkLoop 0 0 [])))
              (length records)) as [Hlt | Hge].
  - by rewrite all_records_snoc, Hsent, take_drop.
  - rewrite Hsent. apply take_ge. lia.
Qed.

(** The consumer receives every envelope the producer pushed, in order,
    and then sees the channel closed. *)
Lemma received_sends (es : list (Envelope RR)) :
  received (map Send es ++ [Close]) = es.
Proof. induction es as [|e es IH]; simpl; [done | by rewrite IH]. Qed.

Lemma closed_sends (es : list (Envelope RR)) :
  closed (map Send es ++ [Close]) = true.
Proof. induction es as [|e es IH]; simpl; done. Qed.

(** C4: for every record sequence and every maximum transfer length, the
    records of the envelopes the consumer receives, concatenated in the
    order the envelopes are sent, are exactly the input sequence: nothing
    is duplicated, dropped or reordered. *)
Theorem axfr_envelopes_reproduce_records (records : list RR) :
  all_records (received (producer records)) = records.
Proof.
  unfold producer. rewrite received_sends. apply envelopes_all_records.
Qed.

(** C10: for an empty record sequence the producer pushes no envelope and
    closes the channel at once, so the consumer receives nothing before it
    sees the end of the transfer. *)
Theorem axfr_empty_records_close_only :
  producer [] = [Close] ∧
  received (producer []) = [] ∧
  closed (producer []) = true.
Proof. by repeat split. Qed.

(** *** What the length test does bound

    After a flush the running total restarts from [0] although the record
    that triggered the flush opens the next envelope, so the budget covers
    every record of an envelope but its first. *)

Lemma wire_len_app (rs1 rs2 : list RR) :
  wire_len Len (rs1 ++ rs2) = wire_len Len rs1 + wire_len Len rs2.
Proof. induction rs1 as [|r rs1 IH]; simpl; [done | rewrite IH; lia]. Qed.

Lemma tail_drop (records : list RR) (j : nat) :
  tail (drop j records) = drop (S j) records.
Proof.
  revert j. induction records as [|r records IH]; intros [|j]; simpl; done.
Qed.

Lemma tail_take (n : nat) (rs : list RR) :
  tail (take n rs) = take (n - 1) (tail rs).
Proof.
  destruct n as [|n], rs as [|r rs]; simpl; try done;
    rewrite Nat.sub_0_r; [by rewrite take_nil | done].
Qed.

Lemma tail_slice (records : list RR) (j i : nat) :
  tail (slice records j i) = slice records (S j) i.
Proof.
  unfold slice. rewrite tail_take, tail_drop. f_equal. lia.
Qed.

Lemma slice_snoc (records : list RR) (j i : nat) (r : RR) :
  (j ≤ i)%nat → records !! i = Some r →
  slice records j (S i) = slice records j i ++ [r].
Proof.
  intros Hji Hr. unfold slice.
  replace (S i - j)%nat with (S (i - j)) by lia.
  apply take_S_r. rewrite lookup_drop.
  by replace (j + (i - j))%nat with i by lia.
Qed.

Lemma slice_empty (records : list RR) (j i : nat) :
  (i ≤ j)%nat → slice records j i = [].
Proof.
  intros Hij. unfold slice. by replace (i - j)%nat with 0%nat by lia.
Qed.

Lemma range_loop_budget (records : list RR) :
  (∀ r, 0 ≤ Len r) → 0 ≤ MaxTransferLength →
  ∀ (rest : list RR) (i : nat) (st : LoopState RR),
    drop i records = rest →
    (ls_j st ≤ i)%nat →
    wire_len Len (slice records (S (ls_j st)) i) ≤ ls_l st →
    ls_l st ≤ MaxTransferLength →
    Forall tail_within_budget (ls_sent st) →
    let st' := range_loop records i rest st in
    wire_len Len (drop (S (ls_j st')) records) ≤ MaxTransferLength ∧
    Forall tail_within_budget (ls_sent st').
Proof.
  intros Hlen HL.
  induction rest as [|r rest IH]; intros i st Hrest Hj Hl HlL Hsent; simpl.
  - split; [|done].
    assert (length records ≤ i)%nat as Hi.
    { destruct (decide (length records ≤ i)%nat) as [|Hn]; [done|].
      apply (f_equal length) in Hrest. rewrite length_drop in Hrest.
      simpl in Hrest. lia. }
    etrans; [|exact HlL]. etrans; [|exact Hl].
    unfold slice. rewrite take_ge; [done|]. rewrite length_drop. lia.
  - assert (records !! i = Some r) as Hr.
    { rewrite <- (Nat.add_0_r i), <- lookup_drop, Hrest. done. }
    assert (drop (S i) records = rest) as Hrest'.
    { by rewrite <- tail_drop, Hrest. }
    apply IH; [done | | | |]; unfold loop_body;
      destruct (Z.ltb_spec MaxTransferLength (ls_l st + Len r)); simpl;
      try lia; try done.
    + rewrite slice_empty by lia. done.
    + destruct (decide (ls_j st = i)) as [Heq | Hne].
      * rewrite slice_empty by lia. rewrite slice_empty in Hl by lia.
        simpl in *. specialize (Hlen r). lia.
      * rewrite (slice_snoc records (S (ls_j st)) i r) by (done || lia).
        rewrite wire_len_app. simpl. lia.
    + apply Forall_app. split; [done|]. apply Forall_singleton.
      unfold tail_within_budget. simpl. rewrite tail_slice. lia.
Qed.

(** X1: with non-negative lengths and a non-negative maximum, every
    envelope without its first record fits [MaxTransferLength]. *)
Lemma envelopes_tail_within_budget (records : list RR) :
  (∀ r, 0 ≤ Len r) → 0 ≤ MaxTransferLength →
  Forall tail_within_budget (envelopes records).
Proof.
  intros Hlen HL. unfold envelopes.
  destruct (range_loop_budget records Hlen HL records 0 (mkLoop 0 0 []))
    as [Hlast Hsent]; simpl; try done.
  destruct (_ <? _)%nat; [|done].
  apply Forall_app. split; [done|]. apply Forall_singleton.
  unfold tail_within_budget. simpl. by rewrite tail_drop.
Qed.

End ProducerFacts.

(** C1: the length test is meant to keep every envelope within the maximum
    transfer length, but the running total restarts from zero after a flush
    instead of from the length of the record that opens the next envelope.
    With three records of 600 bytes and a maximum of 1000, none of them
    oversized, the second envelope holds two records and 1200 bytes. *)
Theorem axfr_envelope_over_budget :
  envelopes (λ r : Z, r) 1000 [600; 600; 600]
    = [mkEnvelope [600]; mkEnvelope [600; 600]] ∧
  wire_len (λ r : Z, r) [600; 600] = 1200 ∧
  Forall (λ r : Z, r ≤ 1000) [600; 600; 600].
Proof.
  split; [reflexivity|]. split; [reflexivity|].
  repeat constructor; lia.
Qed.

(** C6: a record longer than the maximum transfer length is sent whole, but
    not alone: the running total restarts from zero once the envelope
    before it is closed, so the records after it join its envelope.  With
    records of 1200 and 50 bytes and a maximum of 1000, an empty envelope is
    pushed first and the oversized record shares the next one. *)
Theorem axfr_oversized_record_not_alone :
  envelopes (λ r : Z, r) 1000 [1200; 50]
    = [mkEnvelope []; mkEnvelope [1200; 50]].
Proof. reflexivity. Qed.

(** ** Zone matching *)

Section MatchesFacts.

Lemma string_app_cons (a : Ascii.ascii) (s1 s2 : string) :
  String a s1 +:+ s2 = String a (s1 +:+ s2).
Proof. reflexivity. Qed.

Lemma string_app_nil_r (s : string) : s +:+ "" = s.
Proof.
  induction s as [|a s IH]; [done|]. by rewrite string_app_cons, IH.
Qed.

Lemma string_length_app (s1 s2 : string) :
  String.length (s1 +:+ s2) = (String.length s1 + String.length s2)%nat.
Proof.
  induction s1 as [|a s1 IH]; [done|].
  rewrite string_app_cons. simpl. by rewrite IH.
Qed.

Lemma string_drop_app (s1 s2 : string) :
  string_drop (String.length s1) (s1 +:+ s2) = s2.
Proof.
  induction s1 as [|a s1 IH]; [by destruct s2|].
  rewrite string_app_cons. simpl. exact IH.
Qed.

(** Every tail [s[n:]] is a suffix of [s]. *)
Lemma string_drop_suffix (n : nat) (s : string) :
  suffix_of_name (string_drop n s) s.
Proof.
  revert s. induction n as [|n IH]; intros s.
  - exists "". by destruct s.
  - destruct s as [|a s]; simpl.
    + by exists "".
    + destruct (IH s) as [prefix Hs]. exists (String a prefix).
      by rewrite string_app_cons, <- Hs.
Qed.

(** The test computes the declarative suffix relation. *)
Lemma has_suffix_spec (s suffix : string) :
  has_suffix s suffix = true ↔ suffix_of_name suffix s.
Proof.
  unfold has_suffix. rewrite andb_true_iff, Nat.leb_le, String.eqb_eq. split.
  - intros [_ <-]. apply string_drop_suffix.
  - intros [prefix ->]. rewrite string_length_app. split; [lia|].
    replace (String.length prefix + String.length suffix
             - String.length suffix)%nat
      with (String.length prefix) by lia.
    apply string_drop_app.
Qed.

(** The scan returns its starting value or a matching entry, never a
    shorter name than it started from, and no matching entry is longer
    than its result. *)
Lemma Matches_from_spec (qname : string) :
  ∀ (z : list string) (zone : string),
    (Matches_from zone z qname = zone ∨
     (Matches_from zone z qname ∈ z ∧
      has_suffix qname (Matches_from zone z qname) = true)) ∧
    (String.length zone ≤ String.length (Matches_from zone z qname))%nat ∧
    (∀ zname, zname ∈ z → has_suffix qname zname = true →
       (String.length zname
        ≤ String.length (Matches_from zone z qname))%nat).
Proof.
  induction z as [|zname z IH]; intros zone; simpl.
  - split; [by left|]. split; [lia|].
    intros zn Hzn. by apply elem_of_nil in Hzn.
  - destruct (has_suffix qname zname) eqn:Hsuf; simpl;
      [destruct (Nat.ltb_spec (String.length zone) (String.length zname))|].
    + destruct (IH zname) as (Hres & Hlen & Hmax).
      split; [|split].
      * right. destruct Hres as [-> | [Hin Hs]].
        -- split; [apply elem_of_cons; by left | done].
        -- split; [apply elem_of_cons; by right | done].
      * lia.
      * intros zn [-> | Hzn]%elem_of_cons Hs; [done | by apply Hmax].
    + destruct (IH zone) as (Hres & Hlen & Hmax).
      split; [|split].
      * destruct Hres as [-> | [Hin Hs]]; [by left | right].
        split; [apply elem_of_cons; by right | done].
      * done.
      * intros zn [-> | Hzn]%elem_of_cons Hs; [lia | by apply Hmax].
    + destruct (IH zone) as (Hres & Hlen & Hmax).
      split; [|split].
      * destruct Hres as [-> | [Hin Hs]]; [by left | right].
        split; [apply elem_of_cons; by right | done].
      * done.
      * intros zn [-> | Hzn]%elem_of_cons Hs; [congruence | by apply Hmax].
Qed.

(** C7: for every query name [N] and cached zone list [zs], the match is an
    entry of [zs] that is a suffix of [N] and at least as long as every
    entry of [zs] that is a suffix of [N]; or it is the empty result and no
    entry of [zs] is a suffix of [N]. *)
Theorem Matches_longest_suffix (zs : list string) (N : string) :
  (Matches zs N ∈ zs ∧
   suffix_of_name (Matches zs N) N ∧
   ∀ z, z ∈ zs → suffix_of_name z N →
     (String.length z ≤ String.length (Matches zs N))%nat)
  ∨
  (Matches zs N = "" ∧ ∀ z, z ∈ zs → ¬ suffix_of_name z N).
Proof.
  unfold Matches.
  destruct (Matches_from_spec N zs "") as (Hres & _ & Hmax).
  assert (∀ z, z ∈ zs → suffix_of_name z N →
            (String.length z ≤ String.length (Matches_from "" zs N))%nat)
    as Hmax'.
  { intros z Hz Hs. apply Hmax; [done|]. by apply has_suffix_spec. }
  destruct Hres as [Hempty | [Hin Hs]].
  - destruct (decide ("" ∈ zs)) as [Hin | Hnin].
    + left. rewrite Hempty. split; [done|]. split.
      * exists N. by rewrite string_app_nil_r.
      * intros z Hz Hsz. rewrite <- Hempty. by apply Hmax'.
    + right. split; [done|]. intros z Hz Hsz.
      specialize (Hmax' z Hz Hsz). rewrite Hempty in Hmax'.
      destruct z; simpl in Hmax'; [done | lia].
  - left. split; [done|]. split; [by apply has_suffix_spec | done].
Qed.

(** The match is empty exactly when no non-empty entry is a suffix of the
    query name. *)
Lemma Matches_empty_iff (zs : list string) (N : string) :
  Matches zs N = "" ↔ ∀ z, z ∈ zs → suffix_of_name z N → z = "".
Proof.
  unfold Matches.
  destruct (Matches_from_spec N zs "") as (Hres & _ & Hmax). split.
  - intros Hempty z Hz Hs%has_suffix_spec.
    specialize (Hmax z Hz Hs). rewrite Hempty in Hmax.
    destruct z; simpl in Hmax; [done | lia].
  - intros Hall. destruct Hres as [Hempty | [Hin Hs]]; [done|].
    apply Hall; [done | by apply has_suffix_spec].
Qed.

(** The handler's test [zoneName == ""] decides whether no non-empty
    cached zone is a suffix of the query name. *)
Lemma Matches_empty_test (zs : list string) (N : string) :
  bool_decide (Matches zs N = "") = no_nonempty_zone_is_suffix zs N.
Proof.
  unfold no_nonempty_zone_is_suffix.
  destruct (forallb _ zs) eqn:Hall.
  - apply bool_decide_eq_true_2, Matches_empty_iff.
    intros z Hz Hs%has_suffix_spec.
    rewrite forallb_forall in Hall.
    specialize (Hall z (proj1 (list_elem_of_In _ _) Hz)).
    rewrite Hs in Hall. simpl in Hall. rewrite orb_false_r in Hall.
    by apply bool_decide_eq_true_1 in Hall.
  - apply bool_decide_eq_false_2. intros Hempty.
    rewrite <- not_true_iff_false in Hall. apply Hall.
    apply forallb_forall. intros z Hz%list_elem_of_In.
    destruct (has_suffix N z) eqn:Hs; [|by rewrite orb_true_r].
    rewrite orb_false_r. apply bool_decide_eq_true_2.
    apply (proj1 (Matches_empty_iff zs N) Hempty z Hz).
    by apply has_suffix_spec.
Qed.

End MatchesFacts.

(** ** The handler *)

Section HandlerFacts.

Context {RR Zone ZoneRecords DnsMsg Err : Type}.
Variable redis : Redis RR Zone ZoneRecords DnsMsg Err.
Variable host : Host RR DnsMsg Err.

(** The [switch] reaches its [default] arm exactly on the unsupported
    types. *)
Lemma synthesize_supported (p : Plugin) (qType : Z) (qName : string)
    (zone : Zone) (zoneRecords : ZoneRecords) :
  if supported qType
  then ∃ answers extras,
         synthesize redis p qType qName zone zoneRecords
           = Some (answers, extras)
  else synthesize redis p qType qName zone zoneRecords = None.
Proof.
  unfold supported, synthesize. simpl.
  repeat (destruct (qType =? _); simpl;
          [match goal with |- ∃ _ _, Some ?x = _ =>
             exists (fst x), (snd x); by destruct x end |]).
  done.
Qed.

Lemma supported_not_AXFR (qType : Z) :
  supported qType = true → (qType =? TypeAXFR) = false.
Proof.
  intros Hs. destruct (Z.eqb_spec qType TypeAXFR) as [-> | ]; [|done].
  by vm_compute in Hs.
Qed.

(** C8: for every AXFR request that reaches [handleZoneTransfer], the
    handler returns [(dns.RcodeSuccess, nil)] whether [tr.Out] succeeded or
    failed; a transfer error is printed and not returned, and in both
    cases the last thing the handler does is hijack the connection. *)
Theorem handleZoneTransfer_success_and_hijack (zone : Zone)
    (zs : list string) (r : DnsMsg) :
  ret (handleZoneTransfer redis host zone zs r) = (RcodeSuccess, None) ∧
  last (effects (handleZoneTransfer redis host zone zs r)) = Some Hijack ∧
  match tr_Out host r
          (producer (Len host) (MaxTransferLength redis) (AXFR redis zone zs))
  with
  | Some e =>
      effects (handleZoneTransfer redis host zone zs r)
        = [TransferOut
             (producer (Len host) (MaxTransferLength redis)
                (AXFR redis zone zs)) (Some e);
           Println e; Hijack]
  | None =>
      effects (handleZoneTransfer redis host zone zs r)
        = [TransferOut
             (producer (Len host) (MaxTransferLength redis)
                (AXFR redis zone zs)) None;
           Hijack]
  end.
Proof.
  unfold handleZoneTransfer. simpl.
  by destruct (tr_Out _ _ _).
Qed.

(** C9: for every query of a supported type that reaches response assembly
    (non-empty name, a matching zone that loads, a location that
    resolves), [ServeDNS] writes the assembled message and returns
    [(dns.RcodeSuccess, nil)] whatever [WriteMsg] returned: the write
    error shows in the effect only. *)
Theorem ServeDNS_write_error_discarded (p : Plugin) (r : DnsMsg)
    (zone : Zone) :
  Name host r ≠ "" →
  Matches (zones p) (Name host r) ≠ "" →
  LoadZoneC redis (Matches (zones p) (Name host r)) false = Some zone →
  FindLocation redis (Name host r) zone ≠ "" →
  supported (QType host r) = true →
  ∃ m : Reply RR DnsMsg,
    effects (ServeDNS redis host p r)
      = [PoolGet; CallWriteMsg m (WriteMsg host m); ConnClose] ∧
    ret (ServeDNS redis host p r) = (RcodeSuccess, None).
Proof.
  intros Hname Hmatch Hzone Hloc Hsup.
  unfold ServeDNS.
  rewrite (bool_decide_eq_false_2 _ Hname).
  assert ((QType host r =? TypeNone) = false) as ->.
  { destruct (Z.eqb_spec (QType host r) TypeNone) as [Heq | ]; [|done].
    rewrite Heq in Hsup. by vm_compute in Hsup. }
  simpl. rewrite (bool_decide_eq_false_2 _ Hmatch), Hzone.
  rewrite (supported_not_AXFR _ Hsup), (bool_decide_eq_false_2 _ Hloc).
  pose proof (synthesize_supported p (QType host r) (Name host r) zone
    (MakeFqdn redis
       (LoadZoneRecordsC redis (FindLocation redis (Name host r) zone) zone)
       (zone_Name redis zone))) as Hsyn.
  rewrite Hsup in Hsyn. destruct Hsyn as (answers & extras & ->).
  eexists. simpl. split; reflexivity.
Qed.

(** C5 (amended): for every incoming query the outcome is: delegation when
    the name is empty or the type is unset, or when no non-empty cached
    zone is a suffix of the query name; SERVFAIL when the matched zone does
    not load; NXDOMAIN when the zone loads, the type is not AXFR and no
    location resolves; NOTIMP when the type is none of the ten supported
    ones and not AXFR; success in all remaining cases. *)
Theorem ServeDNS_outcome (p : Plugin) (r : DnsMsg) :
  outcome (ServeDNS redis host p r) = dispatch_outcome redis host p r.
Proof.
  unfold ServeDNS, dispatch_outcome. rewrite <- Matches_empty_test.
  destruct (bool_decide (Name host r = "") || (QType host r =? TypeNone));
    [done|].
  destruct (bool_decide (Matches (zones p) (Name host r) = "")); [done|].
  destruct (LoadZoneC redis _ false) as [zone|]; [|done].
  destruct (QType host r =? TypeAXFR) eqn:Haxfr.
  - unfold outcome, with_conn, after, handleZoneTransfer. simpl.
    rewrite andb_false_r. by destruct (tr_Out _ _ _).
  - simpl. destruct (bool_decide (FindLocation redis _ zone = "")); [done|].
    rewrite andb_true_r.
    pose proof (synthesize_supported p (QType host r) (Name host r) zone
      (MakeFqdn redis
         (LoadZoneRecordsC redis (FindLocation redis (Name host r) zone) zone)
         (zone_Name redis zone))) as Hsyn.
    destruct (supported (QType host r)).
    + by destruct Hsyn as (answers & extras & ->).
    + by rewrite Hsyn.
Qed.

End HandlerFacts.

(** C5 (as stated), two ways.  An AXFR query for a name under a cached
    zone that resolves to no location is answered by the zone transfer,
    where the summary as worded gives NXDOMAIN.  And with the empty name
    in the cache, which is a suffix of every query name, the handler finds
    the match empty and delegates, where the summary as worded goes on to
    load the matched zone. *)
Lemma claimed_outcome_fails :
  outcome (ServeDNS demo_redis demo_host demo_plugin
             ("nosuch.example.com.", TypeAXFR))
    ≠ claimed_outcome demo_redis demo_host demo_plugin
        ("nosuch.example.com.", TypeAXFR)
  ∧
  outcome (ServeDNS demo_redis demo_host (mkPlugin [""])
             ("www.example.com.", TypeA))
    ≠ claimed_outcome demo_redis demo_host (mkPlugin [""])
        ("www.example.com.", TypeA).
Proof. split; vm_compute; discriminate. Qed.

Lemma ServeDNS_write_error_discarded_witness :
  ∃ m : Reply Z (string * Z),
    effects (ServeDNS demo_redis demo_host demo_plugin
               ("www.example.com.", TypeA))
      = [PoolGet; CallWriteMsg m (Some "write failed"); ConnClose] ∧
    ret (ServeDNS demo_redis demo_host demo_plugin
           ("www.example.com.", TypeA))
      = (RcodeSuccess, None).
Proof.
  apply (ServeDNS_write_error_discarded demo_redis demo_host demo_plugin
           ("www.example.com.", TypeA) "example.com.");
    vm_compute; (reflexivity || discriminate).
Defined.

(** ** The zone-name cache *)

Section CacheFacts.

Context {Err : Type}.

(** The tick that wakes the goroutine stores whatever slice the load
    returned, with or without an error. *)
Lemma refresh_cached (c : Cache Err) (z : list string) (err : option Err) :
  cached (refresh c (z, err)) = z.
Proof. reflexivity. Qed.

(** Once the goroutine has returned, no tick changes anything. *)
Lemma ticks_returned (loads : list (@Loaded Err)) :
  ∀ c : Cache Err, cache_refresher c = Returned → ticks c loads = c.
Proof.
  induction loads as [|l loads IH]; intros c Hc; [done|].
  unfold ticks in *. simpl. unfold tick at 2. rewrite Hc. by apply IH.
Qed.

(** Of any series of ticks, only the first one is served. *)
Lemma ticks_first_only (c : Cache Err) (l : @Loaded Err)
    (loads : list (@Loaded Err)) :
  cache_refresher c = AwaitingTick →
  ticks c (l :: loads) = refresh c l.
Proof.
  intros Hc. change (ticks c (l :: loads)) with (ticks (tick c l) loads).
  unfold tick. rewrite Hc. apply ticks_returned. by destruct l.
Qed.

End CacheFacts.

(** C2: the refresh logs a failed load but then stores the slice the load
    returned all the same.  With [example.com.] cached and a load that
    fails with a nil slice, readers see an empty list after the tick. *)
Theorem failed_refresh_overwrites_cache :
  (λ c, cached (tick c ([], Some "connection refused")))
    <$> startZoneNameCache (mkPlugin []) (["example.com."], None)
  = Some [].
Proof. reflexivity. Qed.

(** C3: the goroutine waits in a [select] that is not inside a loop, so it
    serves the first tick and returns.  With loads of [a.] at the first
    tick and [b.] at the second, the cache still holds [a.] after both. *)
Theorem second_tick_not_refreshed :
  (λ c, cached (ticks c [(["a."], None); (["b."], None)]))
    <$> startZoneNameCache (Err := string) (mkPlugin [])
          (["example.com."], None)
  = Some ["a."].
Proof. reflexivity. Qed.

(** ** More on the envelope producer *)

Section ProducerLoop.

Context {RR : Type}.
Variable Len : RR → Z.
Variable MaxTransferLength : Z.

Lemma envelopes_final_flush (records : list RR) :
  envelopes Len MaxTransferLength records
  = final_flush records
      (range_loop Len MaxTransferLength records 0 records (mkLoop 0 0 [])).
Proof. reflexivity. Qed.

(** A loop rule: what holds before the scan and is kept by every
    iteration holds after it. *)
Lemma range_loop_rule (P : nat → LoopState RR → Prop) (records : list RR) :
  (∀ i st r, records !! i = Some r → P i st →
     P (S i) (loop_body Len MaxTransferLength records st i r)) →
  ∀ (rest : list RR) (i : nat) (st : LoopState RR),
    drop i records = rest → (i ≤ length records)%nat → P i st →
    P (length records)
      (range_loop Len MaxTransferLength records i rest st).
Proof.
  intros Hstep. induction rest as [|r rest IH]; intros i st Hrest Hi HP; simpl.
  - apply (f_equal length) in Hrest. rewrite length_drop in Hrest.
    simpl in Hrest. by replace (length records) with i by lia.
  - assert (records !! i = Some r) as Hr.
    { rewrite <- (Nat.add_0_r i), <- lookup_drop, Hrest. done. }
    apply (IH (S i)).
    + by rewrite <- tail_drop, Hrest.
    + by apply lookup_lt_Some in Hr.
    + by apply Hstep.
Qed.

Lemma envelopes_rule (P : nat → LoopState RR → Prop) (records : list RR) :
  P 0%nat (mkLoop 0 0 []) →
  (∀ i st r, records !! i = Some r → P i st →
     P (S i) (loop_body Len MaxTransferLength records st i r)) →
  ∃ st, P (length records) st ∧
        envelopes Len MaxTransferLength records = final_flush records st.
Proof.
  intros Hinit Hstep. eexists. split; [|apply envelopes_final_flush].
  apply range_loop_rule; [done | done | lia | done].
Qed.

Lemma wire_len_take_S (records : list RR) (i : nat) (r : RR) :
  records !! i = Some r →
  wire_len Len (take (S i) records) = wire_len Len (take i records) + Len r.
Proof.
  intros Hr. rewrite (take_S_r _ _ _ Hr), wire_len_app. simpl. lia.
Qed.

Lemma slice_0 (records : list RR) (i : nat) :
  slice records 0 i = take i records.
Proof. unfold slice. by rewrite drop_0, Nat.sub_0_r. Qed.

Lemma slice_nonempty (records : list RR) (j i : nat) :
  (j < i)%nat → (j < length records)%nat → slice records j i ≠ [].
Proof.
  intros Hji Hj Hnil. apply (f_equal length) in Hnil.
  unfold slice in Hnil. rewrite length_take, length_drop in Hnil.
  simpl in Hnil. lia.
Qed.

Lemma head_slice (records : list RR) (j i : nat) :
  (j < i)%nat → head (slice records j i) = records !! j.
Proof.
  intros Hji. unfold slice. rewrite head_lookup, lookup_take_lt by lia.
  rewrite lookup_drop. f_equal. lia.
Qed.

Lemma head_drop_lookup (records : list RR) (j : nat) :
  head (drop j records) = records !! j.
Proof. rewrite head_lookup, lookup_drop. f_equal. lia. Qed.

(** While nothing has been pushed, [l] is the length of the records
    scanned and within the maximum; once something has been pushed, the
    first envelope is within the maximum, [j] is behind the scan, and all
    later envelopes are non-empty. *)
Lemma range_loop_first_envelope (records : list RR) :
  0 ≤ MaxTransferLength →
  ∃ st,
    envelopes Len MaxTransferLength records = final_flush records st ∧
    ((ls_sent st = [] ∧ ls_j st = 0%nat ∧
      ls_l st = wire_len Len records ∧ ls_l st ≤ MaxTransferLength)
     ∨
     (∃ e es, ls_sent st = e :: es ∧
        wire_len Len (env_RR e) ≤ MaxTransferLength ∧
        (ls_j st < length records)%nat ∧
        Forall (λ e', env_RR e' ≠ []) es)).
Proof.
  intros HL.
  destruct (envelopes_rule
    (λ i st,
       (ls_sent st = [] ∧ ls_j st = 0%nat ∧
        ls_l st = wire_len Len (take i records) ∧
        ls_l st ≤ MaxTransferLength)
       ∨
       (∃ e es, ls_sent st = e :: es ∧
          wire_len Len (env_RR e) ≤ MaxTransferLength ∧
          (ls_j st < i)%nat ∧
          Forall (λ e', env_RR e' ≠ []) es))
    records) as (st & Hst & Henv).
  - left. by rewrite take_0.
  - intros i st r Hr
      [(Hsent & Hj & Hl & HlL) | (e & es & Hsent & He & Hj & Hes)];
      unfold loop_body;
      destruct (Z.ltb_spec MaxTransferLength (ls_l st + Len r)); simpl.
    + right. rewrite Hsent, Hj, slice_0. simpl.
      eexists _, []. split; [done|]. simpl. split; [lia|].
      split; [lia | done].
    + left. rewrite (wire_len_take_S _ _ _ Hr). repeat split; [done..|lia|lia].
    + right. rewrite Hsent.
      exists e, (es ++ [mkEnvelope (slice records (ls_j st) i)]).
      split; [done|]. split; [done|]. split; [lia|].
      apply Forall_app. split; [done|]. apply Forall_singleton. simpl.
      apply slice_nonempty; [done|]. apply lookup_lt_Some in Hr. lia.
    + right. exists e, es. repeat split; [done..|lia|done].
  - exists st. split; [done|].
    destruct Hst
      as [(Hsent & Hj & Hl & HlL) | (e & es & Hsent & He & Hj & Hes)].
    + left. by rewrite firstn_all in Hl.
    + right. by exists e, es.
Qed.


Lemma wire_len_nonneg (rs : list RR) :
  (∀ r, 0 ≤ Len r) → 0 ≤ wire_len Len rs.
Proof.
  intros Hlen. induction rs as [|r rs IH]; simpl; [done|].
  specialize (Hlen r). lia.
Qed.

Lemma wire_len_take_le (rs : list RR) (k : nat) :
  (∀ r, 0 ≤ Len r) → wire_len Len (take k rs) ≤ wire_len Len rs.
Proof.
  intros Hlen. rewrite <- (take_drop k rs) at 2. rewrite wire_len_app.
  pose proof (wire_len_nonneg (drop k rs) Hlen). lia.
Qed.

(** X2: the first envelope pushed is within the maximum. *)
Theorem first_envelope_within_budget (records : list RR)
    (e : Envelope RR) :
  0 ≤ MaxTransferLength →
  head (envelopes Len MaxTransferLength records) = Some e →
  wire_len Len (env_RR e) ≤ MaxTransferLength.
Proof.
  intros HL.
  destruct (range_loop_first_envelope records HL) as (st & -> & Hst).
  unfold final_flush.
  destruct Hst
    as [(Hsent & Hj & Hl & HlL) | (e' & es & Hsent & He & Hj & Hes)].
  - rewrite Hsent, Hj. destruct (_ <? _)%nat; simpl; [|done].
    intros [= <-]. simpl. rewrite drop_0. lia.
  - rewrite Hsent. destruct (_ <? _)%nat; simpl; by intros [= <-].
Qed.

(** X4: records that exceed the maximum together go out in two envelopes
    at least. *)
Theorem over_budget_records_are_split (records : list RR) :
  0 ≤ MaxTransferLength →
  MaxTransferLength < wire_len Len records →
  (2 ≤ length (envelopes Len MaxTransferLength records))%nat.
Proof.
  intros HL Hover.
  destruct (range_loop_first_envelope records HL) as (st & -> & Hst).
  unfold final_flush.
  destruct Hst
    as [(Hsent & Hj & Hl & HlL) | (e' & es & Hsent & He & Hj & Hes)].
  - lia.
  - apply Nat.ltb_lt in Hj. rewrite Hj, Hsent, length_app. simpl. lia.
Qed.

(** X3: records that fit the maximum together go out in one envelope. *)
Theorem within_budget_records_one_envelope (records : list RR) :
  (∀ r, 0 ≤ Len r) →
  records ≠ [] →
  wire_len Len records ≤ MaxTransferLength →
  envelopes Len MaxTransferLength records = [mkEnvelope records].
Proof.
  intros Hlen Hne Hfit.
  destruct (envelopes_rule
    (λ i st, ls_sent st = [] ∧ ls_j st = 0%nat ∧
             ls_l st = wire_len Len (take i records))
    records) as (st & (Hsent & Hj & _) & ->).
  - by rewrite take_0.
  - intros i st r Hr (Hsent & Hj & Hl). unfold loop_body.
    pose proof (wire_len_take_le records (S i) Hlen) as Hle.
    rewrite (wire_len_take_S _ _ _ Hr) in Hle.
    destruct (Z.ltb_spec MaxTransferLength (ls_l st + Len r)); simpl; [lia|].
    by rewrite (wire_len_take_S _ _ _ Hr), Hl.
  - unfold final_flush. rewrite Hsent, Hj, drop_0.
    destruct records; [done | reflexivity].
Qed.

(** While nothing has been pushed and the scan has started, the first
    record is within the maximum; once something has been pushed, the
    first envelope is empty exactly when the first record is not, and all
    later envelopes are non-empty. *)
Lemma range_loop_empty_envelopes (records : list RR) :
  ∃ st,
    envelopes Len MaxTransferLength records = final_flush records st ∧
    ((ls_sent st = [] ∧ ls_j st = 0%nat ∧
      ∀ r0, head records = Some r0 → Len r0 ≤ MaxTransferLength)
     ∨
     (∃ e es, ls_sent st = e :: es ∧
        (ls_j st < length records)%nat ∧
        (env_RR e = [] ↔
         ∃ r0, head records = Some r0 ∧ MaxTransferLength < Len r0) ∧
        Forall (λ e', env_RR e' ≠ []) es)).
Proof.
  destruct (envelopes_rule
    (λ i st,
       (ls_sent st = [] ∧ ls_j st = 0%nat ∧
        (i = 0%nat → ls_l st = 0) ∧
        ((0 < i)%nat →
         ∀ r0, head records = Some r0 → Len r0 ≤ MaxTransferLength))
       ∨
       (∃ e es, ls_sent st = e :: es ∧
          (ls_j st < i)%nat ∧
          (env_RR e = [] ↔
           ∃ r0, head records = Some r0 ∧ MaxTransferLength < Len r0) ∧
          Forall (λ e', env_RR e' ≠ []) es))
    records) as (st & Hst & Henv).
  - left. split; [done|]. split; [done|]. split; [done|]. intros ?. lia.
  - intros i st r Hr
      [(Hsent & Hj & Hl0 & Hfirst) | (e & es & Hsent & Hj & He & Hes)];
      unfold loop_body;
      destruct (Z.ltb_spec MaxTransferLength (ls_l st + Len r)); simpl.
    + right. rewrite Hsent, Hj, slice_0. simpl.
      eexists _, []. split; [done|]. split; [lia|]. split; [|done]. simpl.
      destruct i as [|i].
      * rewrite take_0. split; [intros _ | done].
        exists r. rewrite head_lookup. split; [done|].
        rewrite Hl0 in * by done. lia.
      * split.
        -- intros Hnil. by destruct records.
        -- intros (r0 & Hr0 & Hover).
           specialize (Hfirst ltac:(lia) r0 Hr0). lia.
    + left. split; [done|]. split; [done|]. split; [intros ?; lia|].
      intros _ r0 Hr0. destruct i as [|i]; [|apply Hfirst; [lia | done]].
      rewrite head_lookup, Hr in Hr0. injection Hr0 as <-.
      rewrite Hl0 in * by done. lia.
    + right. rewrite Hsent.
      exists e, (es ++ [mkEnvelope (slice records (ls_j st) i)]).
      split; [done|]. split; [lia|]. split; [done|].
      apply Forall_app. split; [done|]. apply Forall_singleton. simpl.
      apply slice_nonempty; [done|]. apply lookup_lt_Some in Hr. lia.
    + right. exists e, es. split; [done|]. split; [lia|]. by split.
  - exists st. split; [done|].
    destruct Hst
      as [(Hsent & Hj & Hl0 & Hfirst) | (e & es & Hsent & Hj & He & Hes)].
    + left. split; [done|]. split; [done|]. intros r0 Hr0.
      apply Hfirst; [|done]. destruct records; [done | simpl; lia].
    + right. by exists e, es.
Qed.

Lemma drop_nonempty (records : list RR) (j : nat) :
  (j < length records)%nat → drop j records ≠ [].
Proof.
  intros Hj Hnil. apply (f_equal length) in Hnil.
  rewrite length_drop in Hnil. simpl in Hnil. lia.
Qed.

(** X5: no envelope after the first is empty. *)
Theorem later_envelopes_nonempty (records : list RR) :
  Forall (λ e, env_RR e ≠ [])
    (tail (envelopes Len MaxTransferLength records)).
Proof.
  destruct (range_loop_empty_envelopes records) as (st & -> & Hst).
  unfold final_flush.
  destruct Hst as [(Hsent & Hj & _) | (e & es & Hsent & Hj & _ & Hes)].
  - rewrite Hsent. destruct (_ <? _)%nat; simpl; constructor.
  - apply Nat.ltb_lt in Hj as Hj'. rewrite Hj', Hsent. simpl.
    apply Forall_app. split; [done|]. apply Forall_singleton. simpl.
    by apply drop_nonempty.
Qed.

(** X6: the first envelope is empty exactly when the first record alone
    exceeds the maximum. *)
Theorem first_envelope_empty_iff (records : list RR) :
  head (envelopes Len MaxTransferLength records) = Some (mkEnvelope [])
  ↔ ∃ r0, head records = Some r0 ∧ MaxTransferLength < Len r0.
Proof.
  destruct (range_loop_empty_envelopes records) as (st & -> & Hst).
  unfold final_flush.
  destruct Hst as [(Hsent & Hj & Hfirst) | (e & es & Hsent & Hj & He & Hes)].
  - rewrite Hsent, Hj, drop_0. split.
    + destruct records as [|r records]; simpl; [done|]. by intros [=].
    + intros (r0 & Hr0 & Hover). specialize (Hfirst r0 Hr0). lia.
  - apply Nat.ltb_lt in Hj as Hj'. rewrite Hj', Hsent. simpl.
    rewrite <- He. split.
    + by intros [= ->].
    + intros Hnil. destruct e as [rs]. simpl in Hnil. by rewrite Hnil.
Qed.


(** X7: a record longer than the maximum opens an envelope: the envelopes
    before its own hold exactly the records before it. *)
Theorem oversized_record_opens_envelope (records : list RR) (i : nat)
    (r : RR) :
  (∀ r', 0 ≤ Len r') →
  records !! i = Some r →
  MaxTransferLength < Len r →
  ∃ es1 e es2,
    envelopes Len MaxTransferLength records = es1 ++ e :: es2 ∧
    all_records es1 = take i records ∧
    head (env_RR e) = Some r.
Proof.
  intros Hlen Hi Hover.
  destruct (envelopes_rule
    (λ k st,
       ((k ≤ i)%nat →
        0 ≤ ls_l st ∧ (ls_j st ≤ k)%nat ∧
        all_records (ls_sent st) = take (ls_j st) records)
       ∧
       ((i < k)%nat →
        ∃ es1, all_records es1 = take i records ∧
          ((ls_sent st = es1 ∧ ls_j st = i)
           ∨ ∃ e es2, ls_sent st = es1 ++ e :: es2 ∧
                      head (env_RR e) = Some r)))
    records) as (st & [_ Hst] & ->).
  - split; [|lia]. intros _. by rewrite take_0.
  - intros k st r' Hr' [Hbefore Hafter]. unfold loop_body.
    destruct (Z.ltb_spec MaxTransferLength (ls_l st + Len r')); simpl.
    + split.
      * intros Hk. destruct Hbefore as (Hl & Hj & Hsent); [lia|].
        split; [done|]. split; [lia|].
        rewrite all_records_snoc, Hsent. by apply take_slice.
      * intros Hk. destruct (decide (k = i)) as [-> | Hne].
        -- destruct Hbefore as (Hl & Hj & Hsent); [lia|].
           eexists. split; [|by left].
           rewrite all_records_snoc, Hsent. by apply take_slice.
        -- destruct Hafter as (es1 & Hes1 & Hcase); [lia|].
           exists es1. split; [done|]. right.
           destruct Hcase as [[-> ->] | (e & es2 & -> & He)].
           ++ eexists _, []. split; [done|]. simpl.
              rewrite head_slice by lia. done.
           ++ exists e, (es2 ++ [mkEnvelope (slice records (ls_j st) k)]).
              split; [|done]. by rewrite <- app_assoc.
    + split.
      * intros Hk. destruct Hbefore as (Hl & Hj & Hsent); [lia|].
        specialize (Hlen r'). split; [lia|]. split; [lia | done].
      * intros Hk. destruct (decide (k = i)) as [-> | Hne].
        -- destruct Hbefore as (Hl & _); [lia|].
           rewrite Hi in Hr'. injection Hr' as <-. lia.
        -- apply Hafter. lia.
  - destruct Hst as (es1 & Hes1 & Hcase); [by eapply lookup_lt_Some|].
    unfold final_flush.
    destruct Hcase as [[Hsent Hj] | (e & es2 & Hsent & He)].
    + rewrite Hsent, Hj.
      apply lookup_lt_Some in Hi as Hlt. apply Nat.ltb_lt in Hlt as ->.
      eexists es1, _, []. split; [done|]. split; [done|]. simpl.
      by rewrite head_drop_lookup.
    + rewrite Hsent. destruct (_ <? _)%nat.
      * eexists es1, e, _. split; [|done]. by rewrite <- app_assoc.
      * by exists es1, e, es2.
Qed.

End ProducerLoop.

Lemma first_envelope_within_budget_witness :
  wire_len (λ n : nat, Z.of_nat n) [600%nat] ≤ 1000.
Proof.
  apply (first_envelope_within_budget (λ n : nat, Z.of_nat n) 1000
           [600; 600; 600]%nat (mkEnvelope [600%nat]));
    [lia | reflexivity].
Defined.

Lemma over_budget_records_are_split_witness :
  (2 ≤ length (envelopes (λ n : nat, Z.of_nat n) 1000
                 [600; 600; 600]%nat))%nat.
Proof.
  apply over_budget_records_are_split; [lia | vm_compute; reflexivity].
Defined.

Lemma within_budget_records_one_envelope_witness :
  envelopes (λ n : nat, Z.of_nat n) 1000 [300; 300; 300]%nat
  = [mkEnvelope [300; 300; 300]%nat].
Proof.
  apply within_budget_records_one_envelope;
    [intros r; lia | discriminate | vm_compute; discriminate].
Defined.

Lemma oversized_record_opens_envelope_witness :
  ∃ es1 e es2,
    envelopes (λ n : nat, Z.of_nat n) 1000 [100; 1200; 50]%nat
      = es1 ++ e :: es2 ∧
    all_records es1 = take 1 [100; 1200; 50]%nat ∧
    head (env_RR e) = Some 1200%nat.
Proof.
  apply (oversized_record_opens_envelope (λ n : nat, Z.of_nat n) 1000
           [100; 1200; 50]%nat 1 1200%nat);
    [intros r; lia | reflexivity | vm_compute; reflexivity].
Defined.

Lemma envelopes_tail_within_budget_witness :
  Forall (tail_within_budget (λ n : nat, Z.of_nat n) 1000)
    (envelopes (λ n : nat, Z.of_nat n) 1000 [600; 600; 600]%nat).
Proof.
  apply envelopes_tail_within_budget; [intros r; lia | lia].
Defined.

(** ** More on the handler *)

Section HandlerPaths.

Context {RR Zone ZoneRecords DnsMsg Err : Type}.
Variable redis : Redis RR Zone ZoneRecords DnsMsg Err.
Variable host : Host RR DnsMsg Err.

(** Splits a run of [ServeDNS] into its exit paths. *)
Ltac serve_paths p r :=
  unfold ServeDNS, with_conn, after, handleZoneTransfer;
  destruct (bool_decide (Name host r = "") || (QType host r =? TypeNone));
    [|destruct (bool_decide (Matches (zones p) (Name host r) = ""));
      [|destruct (LoadZoneC redis (Matches (zones p) (Name host r)) false)
          as [zone|];
        [destruct (QType host r =? TypeAXFR);
          [destruct (tr_Out host r _)
          |destruct (bool_decide (FindLocation redis (Name host r) zone = ""));
            [|destruct (synthesize redis p (QType host r) (Name host r) zone _)
                as [[answers extras]|]]]|]]];
  simpl.

(** X8: every query is disposed of exactly once: it is delegated, or gets an
    error response, or a zone transfer, or a written answer. *)
Theorem ServeDNS_one_disposition (p : Plugin) (r : DnsMsg) :
  length (List.filter is_disposition (effects (ServeDNS redis host p r)))
  = 1%nat.
Proof. serve_paths p r; reflexivity. Qed.

(** X9: a query that passes the name and type test takes a store connection
    first and closes it last, on every path, and uses no other; a query
    delegated by that test takes none. *)
Theorem ServeDNS_connection_scoped (p : Plugin) (r : DnsMsg) :
  if bool_decide (Name host r = "") || (QType host r =? TypeNone)
  then List.filter is_conn (effects (ServeDNS redis host p r)) = []
  else ∃ mid,
         effects (ServeDNS redis host p r) = PoolGet :: mid ++ [ConnClose] ∧
         List.filter is_conn mid = [].
Proof.
  unfold ServeDNS.
  destruct (bool_decide (Name host r = "") || (QType host r =? TypeNone));
    [done|].
  unfold with_conn. simpl. eexists. split; [reflexivity|].
  unfold after, handleZoneTransfer.
  destruct (bool_decide (Matches (zones p) (Name host r) = "")); [done|].
  destruct (LoadZoneC redis _ false) as [zone|]; [|done].
  destruct (QType host r =? TypeAXFR).
  - simpl. by destruct (tr_Out host r _).
  - destruct (bool_decide (FindLocation redis _ zone = "")); [done|].
    by destruct (synthesize redis p _ _ zone _) as [[answers extras]|].
Qed.

(** X10: when the handler neither delegates nor sends an error response, it
    returns [(dns.RcodeSuccess, nil)]. *)
Theorem ServeDNS_own_paths_succeed (p : Plugin) (r : DnsMsg) :
  exit_call (effects (ServeDNS redis host p r)) = None →
  ret (ServeDNS redis host p r) = (RcodeSuccess, None).
Proof. serve_paths p r; done. Qed.

(** X11: a delegation passes the query name on and returns the next
    handler's result as it is. *)
Theorem ServeDNS_delegation_result (p : Plugin) (r : DnsMsg)
    (qName : string) :
  CallNext qName ∈ effects (ServeDNS redis host p r) →
  qName = Name host r ∧
  ret (ServeDNS redis host p r) = NextOrFailure host qName r.
Proof.
  serve_paths p r; intros Hin;
    repeat (apply elem_of_cons in Hin as [Hin | Hin]; try done);
    try (by apply elem_of_nil in Hin);
    by injection Hin as ->.
Qed.

(** X12: an error response names the matched zone, carries SERVFAIL,
    NXDOMAIN or NOTIMP and a nil error, and its result is returned as it
    is. *)
Theorem ServeDNS_error_response (p : Plugin) (r : DnsMsg)
    (zoneName : string) (rcode : Z) :
  CallErrorResponse zoneName rcode ∈ effects (ServeDNS redis host p r) →
  zoneName = Matches (zones p) (Name host r) ∧
  rcode ∈ [RcodeServerFailure; RcodeNameError; RcodeNotImplemented] ∧
  ret (ServeDNS redis host p r) = ErrorResponse redis r zoneName rcode None.
Proof.
  serve_paths p r; intros Hin;
    repeat (apply elem_of_cons in Hin as [Hin | Hin]; try done);
    try (by apply elem_of_nil in Hin);
    injection Hin as -> ->; (split; [done|]); (split; [|done]);
    rewrite !elem_of_cons; naive_solver.
Qed.

(** X13: an AXFR query for a name under a cached zone that loads, whose
    transfer succeeds, is answered by the transfer alone; the envelopes
    the transfer has received hold exactly the zone's AXFR records, in
    order, and the channel was closed after them. *)
Theorem ServeDNS_axfr_streams_zone (p : Plugin) (r : DnsMsg) (zone : Zone) :
  Name host r ≠ "" →
  QType host r = TypeAXFR →
  Matches (zones p) (Name host r) ≠ "" →
  LoadZoneC redis (Matches (zones p) (Name host r)) false = Some zone →
  tr_Out host r
    (producer (Len host) (MaxTransferLength redis)
       (AXFR redis zone (zones p))) = None →
  ∃ ch,
    List.filter is_disposition (effects (ServeDNS redis host p r))
      = [TransferOut ch None] ∧
    all_records (received ch) = AXFR redis zone (zones p) ∧
    closed ch = true ∧
    ret (ServeDNS redis host p r) = (RcodeSuccess, None).
Proof.
  intros Hname Htype Hmatch Hzone Hout. unfold ServeDNS.
  rewrite (bool_decide_eq_false_2 _ Hname), Htype. simpl.
  rewrite (bool_decide_eq_false_2 _ Hmatch), Hzone. simpl.
  exists (producer (Len host) (MaxTransferLength redis)
            (AXFR redis zone (zones p))).
  split; [|split; [|split]].
  - unfold handleZoneTransfer. simpl. by rewrite Hout.
  - unfold producer. rewrite received_sends. apply envelopes_all_records.
  - apply closed_sends.
  - reflexivity.
Qed.

End HandlerPaths.

Lemma ServeDNS_own_paths_succeed_witness :
  ret (ServeDNS demo_redis demo_host demo_plugin
         ("example.com.", TypeAXFR)) = (RcodeSuccess, None).
Proof.
  apply ServeDNS_own_paths_succeed. reflexivity.
Defined.

Lemma ServeDNS_delegation_result_witness :
  "www.example.org." = Name demo_host ("www.example.org.", TypeA) ∧
  ret (ServeDNS demo_redis demo_host demo_plugin ("www.example.org.", TypeA))
  = NextOrFailure demo_host "www.example.org." ("www.example.org.", TypeA).
Proof.
  apply ServeDNS_delegation_result. vm_compute.
  apply elem_of_cons. right. apply elem_of_cons. right.
  apply elem_of_cons. by left.
Defined.

Lemma ServeDNS_error_response_witness :
  "example.com."
    = Matches (zones demo_plugin)
        (Name demo_host ("nosuch.example.com.", TypeA)) ∧
  RcodeNameError
    ∈ [RcodeServerFailure; RcodeNameError; RcodeNotImplemented] ∧
  ret (ServeDNS demo_redis demo_host demo_plugin
         ("nosuch.example.com.", TypeA))
  = ErrorResponse demo_redis ("nosuch.example.com.", TypeA)
      "example.com." RcodeNameError None.
Proof.
  apply ServeDNS_error_response. vm_compute.
  apply elem_of_cons. right. apply elem_of_cons. right.
  apply elem_of_cons. by left.
Defined.

Lemma ServeDNS_axfr_streams_zone_witness :
  ∃ ch,
    List.filter is_disposition
      (effects (ServeDNS demo_redis demo_host_transfer_ok demo_plugin
                  ("example.com.", TypeAXFR)))
      = [TransferOut ch None] ∧
    all_records (received ch) = AXFR demo_redis "example.com."
                                  (zones demo_plugin) ∧
    closed ch = true ∧
    ret (ServeDNS demo_redis demo_host_transfer_ok demo_plugin
           ("example.com.", TypeAXFR)) = (RcodeSuccess, None).
Proof.
  apply (ServeDNS_axfr_streams_zone demo_redis demo_host_transfer_ok
           demo_plugin ("example.com.", TypeAXFR) "example.com.");
    vm_compute; (reflexivity || discriminate).
Defined.

(** ** More on the zone-name cache *)

Section CacheRuns.

Context {Err : Type}.

(** After a successful start, whatever the ticks bring, the goroutine has
    either not run yet or run once on the first of them. *)
Lemma ticks_after_start (p : Plugin) (z : list string) (c : Cache Err)
    (loads : list (@Loaded Err)) :
  startZoneNameCache p (z, None) = Some c →
  ticks c loads = match loads with [] => c | l :: _ => refresh c l end.
Proof.
  intros [= <-]. destruct loads as [|l loads]; [done|].
  by apply ticks_first_only.
Qed.

(** X14: once the cache has started, after any ticks the list readers see
    is the one the load returned at the first tick, or the startup list if
    there was no tick yet; later loads never reach the cache. *)
Theorem cache_holds_first_refresh (p : Plugin) (z : list string)
    (loads : list (@Loaded Err)) :
  (λ c, cached (ticks c loads)) <$> startZoneNameCache p (z, None)
  = Some (match loads with [] => z | (z1, _) :: _ => z1 end).
Proof.
  destruct (startZoneNameCache p (z, None)) as [c|] eqn:Hstart; [|done].
  simpl. rewrite (ticks_after_start p z c loads Hstart).
  injection Hstart as <-. by destruct loads as [|[z1 err] loads].
Qed.

(** X15: in every run of the cache the lock is taken and released in pairs
    with nothing logged or started in between, and it is free at the end. *)
Theorem cache_lock_discipline (p : Plugin) (loaded : @Loaded Err)
    (loads : list (@Loaded Err)) :
  match startZoneNameCache p loaded with
  | Some c => lock_wellformed false (cache_trace (ticks c loads)) = true
  | None => True
  end.
Proof.
  destruct loaded as [z [e|]]; [done|].
  destruct (startZoneNameCache p (z, None)) as [c|] eqn:Hstart; [|done].
  rewrite (ticks_after_start p z c loads Hstart).
  injection Hstart as <-.
  destruct loads as [|[z1 [e1|]] loads]; reflexivity.
Qed.

(** X16: once the cache has started, the only error it ever logs is a failed
    load at the first tick; failures of later loads are never logged. *)
Theorem cache_error_logs (p : Plugin) (z : list string)
    (loads : list (@Loaded Err)) :
  (λ c, error_logs (cache_trace (ticks c loads)))
    <$> startZoneNameCache p (z, None)
  = Some (match loads with
          | (_, Some e) :: _ =>
              [CacheLog Error "unable to load zones to cache" (Some e)]
          | _ => []
          end).
Proof.
  destruct (startZoneNameCache p (z, None)) as [c|] eqn:Hstart; [|done].
  simpl. rewrite (ticks_after_start p z c loads Hstart).
  injection Hstart as <-. by destruct loads as [|[z1 [e1|]] loads].
Qed.

End CacheRuns.
